(** * manage_opencode_projects.py: the launcher of the OpenCode metadata manager

    A shallow embedding of [src/manage_opencode_projects.py] and the
    properties of its option extraction, classification, runtime lookup
    and child invocation.

    Python strings are modelled as [string]: the only characters the
    program inspects are the ASCII ones of ["-"], ["--"], ["--bun"] and
    ["="], and those never occur inside the encoding of another
    character, so prefix tests and the split at ["="] agree with
    Python's on every argument the program can receive. *)

From Stdlib Require Import ZArith String Ascii List Lia.
From Equations Require Import Equations.
From stdpp Require Import base option list gmap sets strings.

Local Open Scope string_scope.
Local Open Scope list_scope.

(** ** Python primitives used by the program *)

Module Py.

(** Exceptions the program can raise or let through. *)
Inductive exit_arg :=
| ExitCode (n : Z)          (* sys.exit(n) *)
| ExitMessage (s : string). (* SystemExit("...") *)

Inductive exn :=
| SystemExit (arg : exit_arg)
| IndexError
| OSError (errno : Z).

Inductive result (A : Type) :=
| Ok (a : A)
| Raise (e : exn).
Arguments Ok {A} a.
Arguments Raise {A} e.

(** [s.startswith(p)] *)
Definition startswith (s p : string) : bool := String.prefix p s.

(** [l[n]]: raises IndexError out of range (indices here are never
    negative). *)
Definition getitem {A} (l : list A) (n : nat) : result A :=
  match l !! n with
  | Some x => Ok x
  | None => Raise IndexError
  end.

(** The first occurrence of the character [sep] in [s] cuts it in two. *)
Fixpoint partition (sep : ascii) (s : string) : option (string * string) :=
  match s with
  | EmptyString => None
  | String c s' =>
      if Ascii.eqb c sep then Some (EmptyString, s')
      else match partition sep s' with
           | Some (a, b) => Some (String c a, b)
           | None => None
           end
  end.

(** [s.split(sep, 1)] for a one-character separator: two pieces when
    [sep] occurs, the string itself otherwise. *)
Definition split1 (s : string) (sep : ascii) : list string :=
  match partition sep s with
  | Some (a, b) => [a; b]
  | None => [s]
  end.

(** Truth value of an [str | None]: [None] and the empty string are
    false. The result is the value itself when it is true. *)
Definition truthy (o : option string) : option string :=
  match o with
  | Some s => if String.eqb s "" then None else Some s
  | None => None
  end.

(** A resolved [pathlib.Path]: absolute, as its components below the
    root. *)
Record Path := { parts : list string }.

(** [p.parent]; the root is its own parent. *)
Definition parent (p : Path) : Path := {| parts := removelast (parts p) |}.

End Py.
Import Py.

(** ** Pure functions of the module *)

(** [CLI_SUBCOMMANDS = frozenset({"projects", "sessions", "chat", "tokens"})] *)
Definition CLI_SUBCOMMANDS : gset string :=
  {[ "projects"; "sessions"; "chat"; "tokens" ]}.

(** [is_cli_subcommand]: the [for] loop skips arguments that start with
    ["-"] and returns at the first one that does not. *)
Fixpoint is_cli_subcommand (args : list string) : bool :=
  match args with
  | [] => false
  | arg :: rest =>
      if startswith arg "-" then is_cli_subcommand rest
      else bool_decide (arg ∈ CLI_SUBCOMMANDS)
  end.

(** Lines 59-61 of [run_entrypoint]:
    [if args_list and args_list[0] == "--": args_list = args_list[1:]]. *)
Definition drop_leading_separator (args_list : list string) : list string :=
  match args_list with
  | a :: _ => if String.eqb a "--" then drop 1 args_list else args_list
  | [] => args_list
  end.

(** The [while] loop of [main] (lines 81-92), on the index [i] as in the
    source. Each iteration moves [i] forward, so [len(args) - i] decreases. *)
Equations? extract_loop (args : list string) (i : nat)
    (bun_exe_path : option string) (filtered_args : list string)
  : result (option string * list string) by wf (length args - i) lt :=
extract_loop args i bun_exe_path filtered_args :=
  match decide (i < length args)%nat with
  | right _ => Ok (bun_exe_path, filtered_args)
  | left Hlt =>
      match getitem args i with
      | Raise e => Raise e
      | Ok a =>
          if (String.eqb a "--bun" && bool_decide (i + 1 < length args)%nat)%bool
          then
            match getitem args (i + 1) with
            | Raise e => Raise e
            | Ok v => extract_loop args (i + 2) (Some v) filtered_args
            end
          else if startswith a "--bun="
          then
            match getitem (split1 a "=") 1 with
            | Raise e => Raise e
            | Ok v => extract_loop args (i + 1) (Some v) filtered_args
            end
          else extract_loop args (i + 1) bun_exe_path (filtered_args ++ [a])
      end
  end.
Proof.
  all: lia.
Qed.

(** Lines 77-92 of [main]: the loop from [i = 0], no override, nothing
    kept yet. *)
Definition extract_options (argv : list string)
  : result (option string * list string) :=
  let args := argv in
  extract_loop args 0 None [].

(** ** The environment and the effects of a run *)

(** What the operating system answers: the text of [__file__] and the
    absolute path it resolves to, the arguments of the process, the
    [PATH] search, and the fate of a child process. *)
Inductive completed :=
| CompletedProcess (returncode : Z)  (* the child ran and ended *)
| LaunchFailed (errno : Z).           (* the child could not be created *)

Record World := {
  module_file : string;                              (* __file__ *)
  fs_resolve : string -> Path;                       (* Path(..).resolve() *)
  sys_argv : list string;                            (* sys.argv *)
  shutil_which : string -> option string;            (* shutil.which *)
  os_spawn : list string -> Path -> completed        (* subprocess.run *)
}.

(** What a run does to the outside, in order. *)
Inductive event :=
| EvResolve (file : string)
| EvWhich (name : string)
| EvRun (cmd : list string) (cwd : Path).

(** A computation yields the events it caused and a value or an
    exception. *)
Definition M (A : Type) : Type := list event * result A.

Definition ret {A} (a : A) : M A := ([], Ok a).
Definition raise {A} (e : exn) : M A := ([], Raise e).
Definition emit (ev : event) : M unit := ([ev], Ok tt).
Definition lift {A} (r : result A) : M A := ([], r).

Definition bind {A B} (m : M A) (k : A -> M B) : M B :=
  match m with
  | (t, Ok a) => let '(t', r) := k a in (t ++ t', r)
  | (t, Raise e) => (t, Raise e)
  end.

Declare Scope py_scope.
Delimit Scope py_scope with py.
Notation "x <- m ;; k" := (bind m (fun x => k))
  (at level 100, m at next level, right associativity) : py_scope.
Notation "m ;;; k" := (bind m (fun _ => k))
  (at level 100, right associativity) : py_scope.

Definition trace {A} (m : M A) : list event := fst m.
Definition outcome {A} (m : M A) : result A := snd m.

Definition is_run (ev : event) : bool :=
  match ev with EvRun _ _ => true | _ => false end.
Definition is_which (ev : event) : bool :=
  match ev with EvWhich _ => true | _ => false end.
Definition is_resolve (ev : event) : bool :=
  match ev with EvResolve _ => true | _ => false end.

(** The module's globals that are computed when it is loaded. *)
Record globals := { PROJECT_DIR : Path }.

(** How the interpreter ends: what it wrote to the standard error stream
    and the status of the process. *)
Inductive stderr_item :=
| Message (s : string)
| Traceback (e : exn).

Record termination := {
  events : list event;
  stderr : list stderr_item;
  exit_status : Z
}.

Section Program.

Variable w : World.

Definition resolve (file : string) : M Path :=
  (emit (EvResolve file) ;;; ret (fs_resolve w file))%py.

Definition which (name : string) : M (option string) :=
  (emit (EvWhich name) ;;; ret (shutil_which w name))%py.

(** [subprocess.run(cmd, cwd=...)] with no other option: the streams
    are inherited, the call blocks until the child ends and its return
    code is not checked; a child that cannot be created raises an
    [OSError] (file not found, permission denied, ...). These are the
    two outcomes the program is written for; what the call raises
    besides (a [ValueError] for an argument with a NUL character, an
    interrupt from the keyboard) is not modelled, so nothing below is
    to be read as a list of all the exceptions of a run. *)
Definition subprocess_run (cmd : list string) (cwd : Path) : M Z :=
  (emit (EvRun cmd cwd) ;;;
   match os_spawn w cmd cwd with
   | CompletedProcess returncode => ret returncode
   | LaunchFailed errno => raise (OSError errno)
   end)%py.

(** Line 27: [PROJECT_DIR = Path(__file__).resolve().parent]. *)
Definition module_init : M globals :=
  (p <- resolve (module_file w) ;;
   ret {| PROJECT_DIR := parent p |})%py.

(** [find_bun] (lines 30-37). *)
Definition find_bun (explicit_path : option string) : M string :=
  match truthy explicit_path with
  | Some p => ret p
  | None =>
      (bun_path <- which "bun" ;;
       match truthy bun_path with
       | Some p => ret p
       | None =>
           raise (SystemExit
                    (ExitMessage "bun executable not found. Please install Bun."))
       end)%py
  end.

(** [run_entrypoint] (lines 51-65). *)
Definition run_entrypoint (g : globals) (bun_exe : string)
    (args : list string) : M Z :=
  let args_list := args in
  let args_list := drop_leading_separator args_list in
  let cmd := [bun_exe; "src/bin/opencode-manager.ts"] ++ args_list in
  (returncode <- subprocess_run cmd (PROJECT_DIR g) ;;
   ret returncode)%py.

(** Lines 74-75 of [main]:
    [if argv is None: argv = sys.argv[1:]]. *)
Definition default_argv (argv : option (list string)) : list string :=
  match argv with
  | None => drop 1 (sys_argv w)
  | Some argv => argv
  end.

(** [main] (lines 68-95). *)
Definition main (g : globals) (argv : option (list string)) : M Z :=
  let argv := default_argv argv in
  (extracted <- lift (extract_options argv) ;;
   let bun_exe_path := fst extracted in
   let filtered_args := snd extracted in
   bun_exe <- find_bun bun_exe_path ;;
   run_entrypoint g bun_exe filtered_args)%py.

(** The file run as a script: the module is loaded, then
    [sys.exit(main())]. *)
Definition sys_exit {A} (code : Z) : M A :=
  raise (SystemExit (ExitCode code)).

Definition script : M unit :=
  (g <- module_init ;;
   code <- main g None ;;
   sys_exit code)%py.

(** How the interpreter turns the end of the script into the end of
    the process: [SystemExit] with an integer gives that status (the
    system keeps its low eight bits), with a string the string is
    printed and the status is 1; any other exception is printed with
    its traceback and the status is 1. *)
Definition terminate {A} (m : M A) : termination :=
  match m with
  | (t, Ok _) => {| events := t; stderr := []; exit_status := 0 |}
  | (t, Raise (SystemExit (ExitCode n))) =>
      {| events := t; stderr := []; exit_status := n mod 256 |}
  | (t, Raise (SystemExit (ExitMessage s))) =>
      {| events := t; stderr := [Message s]; exit_status := 1 |}
  | (t, Raise e) =>
      {| events := t; stderr := [Traceback e]; exit_status := 1 |}
  end.

Definition run_script : termination := terminate script.

End Program.

(** ** The wrapper option, as the specification words it

    The argument vector read left to right falls into consecutive
    pieces: the two-token form [--bun VALUE], the single-token form
    [--bun=VALUE], and every other token on its own. *)

Inductive segment :=
| BunPair (value : string)   (* "--bun" followed immediately by its value *)
| BunEq (value : string)     (* "--bun=VALUE" *)
| Other (token : string).    (* anything else *)

Definition seg_tokens (s : segment) : list string :=
  match s with
  | BunPair v => ["--bun"; v]
  | BunEq v => ["--bun=" +:+ v]
  | Other t => [t]
  end.

Definition seg_value (s : segment) : option string :=
  match s with
  | BunPair v | BunEq v => Some v
  | Other _ => None
  end.

Definition seg_kept (s : segment) : list string :=
  match s with
  | Other t => [t]
  | _ => []
  end.

(** The tokens of all pieces, the values of the recognized occurrences
    and the tokens outside them, each in order. *)
Definition tokens (segs : list segment) : list string := segs ≫= seg_tokens.
Definition values (segs : list segment) : list string := omap seg_value segs.
Definition kept (segs : list segment) : list string := segs ≫= seg_kept.

(** [Segmented argv segs]: [segs] is the left-to-right reading of [argv].
    A token [--bun] starts an occurrence exactly when a token follows it;
    a token that starts with [--bun=] is always one. *)
Inductive Segmented : list string -> list segment -> Prop :=
| Segmented_nil :
    Segmented [] []
| Segmented_pair v rest segs :
    Segmented rest segs ->
    Segmented ("--bun" :: v :: rest) (BunPair v :: segs)
| Segmented_eq v rest segs :
    Segmented rest segs ->
    Segmented (("--bun=" +:+ v) :: rest) (BunEq v :: segs)
| Segmented_other t rest segs :
    t <> "--bun" \/ rest = [] ->
    startswith t "--bun=" = false ->
    Segmented rest segs ->
    Segmented (t :: rest) (Other t :: segs).

(** The reading as a function. *)
Fixpoint segments (argv : list string) : list segment :=
  match argv with
  | [] => []
  | t :: rest =>
      if String.eqb t "--bun" then
        match rest with
        | v :: rest' => BunPair v :: segments rest'
        | [] => [Other t]
        end
      else if startswith t "--bun=" then
        BunEq (String.substring 6 (String.length t - 6) t) :: segments rest
      else Other t :: segments rest
  end.

(** A token that the wrapper could take for its option. *)
Definition is_bun_token (t : string) : bool :=
  (String.eqb t "--bun" || startswith t "--bun=")%bool.

(** The override in force after the occurrences [segs], when it was
    [before] ahead of them. *)
Definition override (before : option string) (segs : list segment)
  : option string :=
  match last (values segs) with
  | Some v => Some v
  | None => before
  end.

(** ** Abbreviations for the statements *)

(** The command line of the child for the executable [exe] and the
    extracted arguments [filtered]. *)
Definition child_cmd (exe : string) (filtered : list string) : list string :=
  exe :: "src/bin/opencode-manager.ts" :: drop_leading_separator filtered.

(** What [subprocess.run] hands back or raises. *)
Definition spawn_result (w : World) (cmd : list string) (cwd : Path) : result Z :=
  match os_spawn w cmd cwd with
  | CompletedProcess returncode => Ok returncode
  | LaunchFailed errno => Raise (OSError errno)
  end.

Definition not_found : exn :=
  SystemExit (ExitMessage "bun executable not found. Please install Bun.").

(** A flag, for the classification: a token that starts with ["-"]. *)
Definition is_flag (t : string) : Prop := startswith t "-" = true.

(** A small environment for examples: the script lives in [/opt/oc],
    [argv] are its arguments, [found] is what the [PATH] search gives for
    ["bun"], and [child] is the fate of any child process. *)
Definition example_world (argv : list string) (found : option string)
    (child : completed) : World :=
  {| module_file := "manage_opencode_projects.py";
     fs_resolve := fun _ =>
       {| parts := ["opt"; "oc"; "manage_opencode_projects.py"] |};
     sys_argv := "manage_opencode_projects.py" :: argv;
     shutil_which := fun name => if String.eqb name "bun" then found else None;
     os_spawn := fun _ _ => child |}.

Definition example_globals : globals :=
  {| PROJECT_DIR := {| parts := ["opt"; "oc"] |} |}.

(** A run of the script in which a child could not be created. *)
Definition launch_fails (w : World) : Prop :=
  exists cmd cwd errno,
    In (EvRun cmd cwd) (events (run_script w))
    /\ os_spawn w cmd cwd = LaunchFailed errno.

(** A run of the script that ends because no runtime was found: no
    override is in force and the [PATH] search gives nothing, so
    [find_bun] raises its [SystemExit]. *)
Definition runtime_not_found (w : World) : Prop :=
  outcome (script w)
  = Raise (SystemExit
             (ExitMessage "bun executable not found. Please install Bun.")).

(** ** Strings and indexing *)

Lemma startswith_app (p v : string) : startswith (p +:+ v) p = true.
Proof.
  unfold startswith. induction p as [|c p IH]; simpl.
  - by destruct v.
  - destruct (ascii_dec c c); [exact IH | done].
Qed.

Lemma startswith_inv (s p : string) :
  startswith s p = true -> exists v, s = p +:+ v.
Proof.
  unfold startswith. revert s.
  induction p as [|c p IH]; intros s H.
  - by exists s.
  - destruct s as [|d s]; simpl in H; [done|].
    destruct (ascii_dec c d) as [->|]; [|done].
    destruct (IH s H) as [v ->]. by exists v.
Qed.

Lemma split1_bun_eq (v : string) :
  getitem (split1 ("--bun=" +:+ v) "=") 1 = Ok v.
Proof. reflexivity. Qed.

Lemma bun_eq_not_bun (v : string) : String.eqb ("--bun=" +:+ v) "--bun" = false.
Proof. reflexivity. Qed.

Lemma getitem_middle {A} (pre rest : list A) (x : A) :
  getitem (pre ++ x :: rest) (length pre) = Ok x.
Proof. unfold getitem. by rewrite list_lookup_middle. Qed.

Lemma values_cons s segs :
  values (s :: segs)
  = match seg_value s with Some v => v :: values segs | None => values segs end.
Proof. reflexivity. Qed.

Lemma override_pair bun v segs :
  override bun (BunPair v :: segs) = override (Some v) segs.
Proof.
  unfold override. rewrite values_cons. simpl. rewrite last_cons.
  by destruct (last (values segs)).
Qed.

Lemma override_eq bun v segs :
  override bun (BunEq v :: segs) = override (Some v) segs.
Proof.
  unfold override. rewrite values_cons. simpl. rewrite last_cons.
  by destruct (last (values segs)).
Qed.

Lemma override_other bun t segs :
  override bun (Other t :: segs) = override bun segs.
Proof. reflexivity. Qed.

(** ** The loop computes the left-to-right reading *)

(** Invariant of the loop: with [pre] already scanned ([i = len(pre)]),
    the rest is read piece by piece. *)
Lemma extract_loop_segmented rest segs :
  Segmented rest segs ->
  forall pre bun filt,
    extract_loop (pre ++ rest) (length pre) bun filt
    = Ok (override bun segs, filt ++ kept segs).
Proof.
  induction 1 as [|v rest segs _ IH|v rest segs _ IH|t rest segs Ht Hp _ IH];
    intros pre bun filt; rewrite extract_loop_equation_1.
  - rewrite app_nil_r. destruct (decide _) as [Hlt|_]; [lia|].
    unfold kept. simpl. by rewrite app_nil_r.
  - destruct (decide _) as [_|Hge]; [|rewrite length_app in Hge; simpl in Hge; lia].
    rewrite getitem_middle. simpl.
    rewrite bool_decide_eq_true_2 by (rewrite length_app; simpl; lia).
    replace (pre ++ "--bun" :: v :: rest) with ((pre ++ ["--bun"]) ++ v :: rest)
      by (by rewrite <- app_assoc).
    replace (length pre + 1) with (length (pre ++ ["--bun"]))
      by (rewrite length_app; simpl; lia).
    rewrite getitem_middle.
    replace ((pre ++ ["--bun"]) ++ v :: rest) with ((pre ++ ["--bun"; v]) ++ rest)
      by (by rewrite <- !app_assoc).
    replace (length pre + 2) with (length (pre ++ ["--bun"; v]))
      by (rewrite !length_app; simpl; lia).
    rewrite IH. by rewrite override_pair.
  - destruct (decide _) as [_|Hge]; [|rewrite length_app in Hge; simpl in Hge; lia].
    rewrite getitem_middle, bun_eq_not_bun, startswith_app, split1_bun_eq. simpl.
    replace (pre ++ ("--bun=" +:+ v) :: rest) with ((pre ++ ["--bun=" +:+ v]) ++ rest)
      by (by rewrite <- app_assoc).
    replace (length pre + 1) with (length (pre ++ ["--bun=" +:+ v]))
      by (rewrite length_app; simpl; lia).
    rewrite IH. by rewrite override_eq.
  - destruct (decide _) as [_|Hge]; [|rewrite length_app in Hge; simpl in Hge; lia].
    rewrite getitem_middle, Hp.
    assert ((String.eqb t "--bun"
             && bool_decide (length pre + 1 < length (pre ++ t :: rest)))%bool
            = false) as ->.
    { destruct Ht as [Ht| ->].
      - apply String.eqb_neq in Ht. by rewrite Ht.
      - rewrite bool_decide_eq_false_2 by (rewrite length_app; simpl; lia).
        apply andb_false_r. }
    replace (pre ++ t :: rest) with ((pre ++ [t]) ++ rest)
      by (by rewrite <- app_assoc).
    replace (length pre + 1) with (length (pre ++ [t]))
      by (rewrite length_app; simpl; lia).
    rewrite IH, override_other. unfold kept. simpl. by rewrite <- app_assoc.
Qed.

(** ** Properties of the reading *)

Lemma substring_all (s : string) : String.substring 0 (String.length s) s = s.
Proof. induction s as [|c s IH]; simpl; [done | by rewrite IH]. Qed.

Lemma bun_eq_value (v : string) :
  String.substring 6 (String.length ("--bun=" +:+ v) - 6) ("--bun=" +:+ v) = v.
Proof. simpl. rewrite Nat.sub_0_r. apply substring_all. Qed.

(** Every argument vector has a reading: the one [segments] computes. *)
Lemma segments_spec (argv : list string) : Segmented argv (segments argv).
Proof.
  remember (length argv) as n eqn:Hn.
  revert argv Hn. induction (lt_wf n) as [n _ IH]. intros argv ->.
  destruct argv as [|t rest]; [constructor|]. simpl.
  destruct (String.eqb t "--bun") eqn:Ht.
  - apply String.eqb_eq in Ht as ->. destruct rest as [|v rest'].
    + constructor; [by right | done | constructor].
    + constructor. eapply IH; [|reflexivity]. simpl. lia.
  - apply String.eqb_neq in Ht.
    destruct (startswith t "--bun=") eqn:Hp.
    + destruct (startswith_inv _ _ Hp) as [v ->]. rewrite bun_eq_value.
      constructor. eapply IH; [|reflexivity]. simpl. lia.
    + constructor; [by left | done |]. eapply IH; [|reflexivity]. simpl. lia.
Qed.

(** And only one. *)
Lemma Segmented_fun argv segs1 segs2 :
  Segmented argv segs1 -> Segmented argv segs2 -> segs1 = segs2.
Proof.
  intros H1. revert segs2.
  induction H1 as [|v rest segs _ IH|v rest segs _ IH|t rest segs Ht Hp _ IH];
    intros segs2 H2; inversion H2; subst; try discriminate; try done;
    try (f_equal; by apply IH).
  - match goal with H : _ \/ _ |- _ => by destruct H end.
  - match goal with H : _ = _ :> string |- _ => compute in H; subst end.
    f_equal. by apply IH.
  - by rewrite startswith_app in *.
  - by destruct Ht.
  - by rewrite startswith_app in *.
Qed.

Lemma Segmented_segments argv segs : Segmented argv segs -> segs = segments argv.
Proof. intros H. eapply Segmented_fun; [exact H | apply segments_spec]. Qed.

(** The pieces are consecutive and cover the vector. *)
Lemma Segmented_tokens argv segs : Segmented argv segs -> tokens segs = argv.
Proof.
  unfold tokens. induction 1; simpl; [done | by f_equal; f_equal | by f_equal..].
Qed.

(** What is kept is taken from the vector without reordering. *)
Lemma Segmented_kept_sublist argv segs :
  Segmented argv segs -> kept segs `sublist_of` argv.
Proof.
  unfold kept. induction 1; simpl.
  - constructor.
  - by do 2 apply sublist_cons.
  - by apply sublist_cons.
  - by apply sublist_skip.
Qed.

(** Tokens that cannot be taken for the option are all kept. *)
Lemma Segmented_plain (l : list string) :
  forallb (fun t => negb (is_bun_token t)) l = true ->
  Segmented l (Other <$> l).
Proof.
  induction l as [|t l IH]; simpl; [constructor|].
  intros [Ht Hl]%andb_true_iff. apply negb_true_iff in Ht.
  unfold is_bun_token in Ht. apply orb_false_iff in Ht as [Ht1 Ht2].
  constructor; [left; by apply String.eqb_neq | done | by apply IH].
Qed.

Lemma kept_plain (l : list string) : kept (Other <$> l) = l.
Proof. unfold kept. induction l; simpl; [done | by f_equal]. Qed.

Lemma values_plain (l : list string) : values (Other <$> l) = [].
Proof. unfold values. induction l; simpl; done. Qed.

Lemma kept_app s1 s2 : kept (s1 ++ s2) = kept s1 ++ kept s2.
Proof. unfold kept. apply bind_app. Qed.

Lemma values_app s1 s2 : values (s1 ++ s2) = values s1 ++ values s2.
Proof. unfold values. apply omap_app. Qed.

(** Readings compose, unless the first ends on a [--bun] that waits
    for its value. *)
Lemma Segmented_app pre segs post segs' :
  Segmented pre segs ->
  last segs <> Some (Other "--bun") ->
  Segmented post segs' ->
  Segmented (pre ++ post) (segs ++ segs').
Proof.
  intros Hpre. revert post segs'.
  induction Hpre as [|v rest segs _ IH|v rest segs _ IH|t rest segs Ht Hp Hrest IH];
    intros post segs' Hlast Hpost; simpl.
  - done.
  - constructor. apply IH; [|done].
    intros E. apply Hlast. rewrite last_cons. by rewrite E.
  - constructor. apply IH; [|done].
    intros E. apply Hlast. rewrite last_cons. by rewrite E.
  - constructor; [|done|].
    + destruct Ht as [Ht| ->]; [by left|].
      inversion Hrest; subst. left. intros ->. by apply Hlast.
    + apply IH; [|done].
      intros E. apply Hlast. rewrite last_cons. by rewrite E.
Qed.

(** ** The shape of a run *)

Lemma extract_options_segmented argv segs :
  Segmented argv segs ->
  extract_options argv = Ok (override None segs, kept segs).
Proof.
  intros H. unfold extract_options.
  exact (extract_loop_segmented _ _ H [] None []).
Qed.

(** The loop always ends, and never on an exception. *)
Lemma extract_options_total argv :
  extract_options argv
  = Ok (override None (segments argv), kept (segments argv)).
Proof. apply extract_options_segmented, segments_spec. Qed.

Lemma bind_ret_l {A B} (a : A) (k : A -> M B) : bind ([], Ok a) k = k a.
Proof. unfold bind. by destruct (k a). Qed.

Lemma bind_lift_ok {A B} (a : A) (k : A -> M B) : bind (lift (Ok a)) k = k a.
Proof. apply bind_ret_l. Qed.

Lemma run_entrypoint_eq w g bun_exe args :
  run_entrypoint w g bun_exe args
  = ([EvRun (child_cmd bun_exe args) (PROJECT_DIR g)],
     spawn_result w (child_cmd bun_exe args) (PROJECT_DIR g)).
Proof.
  unfold run_entrypoint, subprocess_run, spawn_result, child_cmd. simpl.
  by destruct (os_spawn _ _ _).
Qed.

Lemma find_bun_eq w explicit_path :
  find_bun w explicit_path
  = match truthy explicit_path with
    | Some p => ([], Ok p)
    | None =>
        match truthy (shutil_which w "bun") with
        | Some p => ([EvWhich "bun"], Ok p)
        | None => ([EvWhich "bun"], Raise not_found)
        end
    end.
Proof.
  unfold find_bun, which. destruct (truthy explicit_path); [done|].
  simpl. by destruct (truthy (shutil_which w "bun")).
Qed.

Lemma main_eq w g argv :
  main w g argv
  = (bun_exe <- find_bun w (override None (segments (default_argv w argv))) ;;
     run_entrypoint w g bun_exe (kept (segments (default_argv w argv))))%py.
Proof. unfold main. by rewrite extract_options_total, bind_lift_ok. Qed.

(** The three ways a call of [main] goes. *)
Lemma main_cases w g argv :
  let segs := segments (default_argv w argv) in
  let run p := EvRun (child_cmd p (kept segs)) (PROJECT_DIR g) in
  let res p := spawn_result w (child_cmd p (kept segs)) (PROJECT_DIR g) in
  main w g argv
  = match truthy (override None segs) with
    | Some p => ([run p], res p)
    | None =>
        match truthy (shutil_which w "bun") with
        | Some p => ([EvWhich "bun"; run p], res p)
        | None => ([EvWhich "bun"], Raise not_found)
        end
    end.
Proof.
  intros segs run res. rewrite main_eq, find_bun_eq. fold segs.
  destruct (truthy (override None segs)) as [p|].
  - unfold bind. by rewrite run_entrypoint_eq.
  - destruct (truthy (shutil_which w "bun")) as [p|]; [|done].
    unfold bind. by rewrite run_entrypoint_eq.
Qed.

Lemma script_eq w :
  script w
  = let g := {| PROJECT_DIR := parent (fs_resolve w (module_file w)) |} in
    (EvResolve (module_file w) :: trace (main w g None),
     match outcome (main w g None) with
     | Ok code => Raise (SystemExit (ExitCode code))
     | Raise e => Raise e
     end).
Proof.
  unfold script, module_init, resolve, sys_exit, raise, trace, outcome. simpl.
  destruct (main w _ None) as [t [code|e]]; simpl; [|done].
  by rewrite app_nil_r.
Qed.

(** ** The child invocation *)

Lemma script_events w :
  events (run_script w)
  = EvResolve (module_file w)
    :: trace (main w {| PROJECT_DIR := parent (fs_resolve w (module_file w)) |} None).
Proof.
  unfold run_script. rewrite script_eq. simpl.
  destruct (outcome _) as [code|[[n|m]| |errno]]; reflexivity.
Qed.

(** C1. The child invocation built by [run_entrypoint] is the executable
    path, then the constant ["src/bin/opencode-manager.ts"], then the
    arguments after the optional leading ["--"] is dropped, in order; it
    is the only thing [run_entrypoint] does. Its working directory is
    [PROJECT_DIR], which the module computes once, when it is loaded, as
    the parent of the resolved path of its own file: a run of the script
    resolves that path exactly once, before anything else, and every
    child it starts has that directory as working directory. Spelled
    out: when [args] is ["--"] followed by [rest], the child gets
    exactly [rest] after the two fixed elements; in every other case it
    gets exactly [args]. *)
Theorem run_entrypoint_child_invocation (w : World) (g : globals)
    (bun_exe : string) (args : list string) :
  trace (run_entrypoint w g bun_exe args)
  = [EvRun ([bun_exe; "src/bin/opencode-manager.ts"]
              ++ drop_leading_separator args)
           (PROJECT_DIR g)]
  /\ ((exists rest,
          args = "--" :: rest
          /\ trace (run_entrypoint w g bun_exe args)
             = [EvRun (bun_exe :: "src/bin/opencode-manager.ts" :: rest)
                      (PROJECT_DIR g)])
      \/ (head args <> Some "--"
          /\ trace (run_entrypoint w g bun_exe args)
             = [EvRun (bun_exe :: "src/bin/opencode-manager.ts" :: args)
                      (PROJECT_DIR g)]))
  /\ module_init w
     = ([EvResolve (module_file w)],
        Ok {| PROJECT_DIR := parent (fs_resolve w (module_file w)) |})
  /\ filter is_resolve (events (run_script w)) = [EvResolve (module_file w)]
  /\ Forall (fun ev => match ev with
                       | EvRun _ cwd => cwd = parent (fs_resolve w (module_file w))
                       | _ => True
                       end) (events (run_script w)).
Proof.
  split; [by rewrite run_entrypoint_eq|]. split.
  { rewrite run_entrypoint_eq. unfold child_cmd, trace. simpl.
    destruct args as [|a rest]; [by right|]. simpl.
    destruct (String.eqb a "--") eqn:Ha.
    - apply String.eqb_eq in Ha as ->. left. by exists rest.
    - apply String.eqb_neq in Ha. right. split; [|done]. by intros [= ->]. }
  split; [done|].
  rewrite script_events, main_cases. simpl.
  destruct (truthy (override None _)) as [p|];
    [|destruct (truthy (shutil_which w "bun")) as [p|]]; simpl;
    (split; [done | repeat constructor]).
Qed.

(** ** Exit status *)

Lemma main_returns w g argv cmd cwd rc :
  In (EvRun cmd cwd) (trace (main w g argv)) ->
  os_spawn w cmd cwd = CompletedProcess rc ->
  outcome (main w g argv) = Ok rc.
Proof.
  rewrite main_cases. unfold spawn_result.
  destruct (truthy (override None _)) as [p|];
    [|destruct (truthy (shutil_which w "bun")) as [p|]]; simpl;
    intros Hin Hrc;
    intuition simplify_eq; by rewrite Hrc.
Qed.

(** C2. Whenever the child is launched and ends with return code [rc],
    [run_entrypoint] returns [rc], [main] returns [rc], and the script,
    which passes it to [sys.exit], ends with status [rc] (as the system
    keeps it: its low eight bits, that is [rc] itself for every exit code
    0..255 of a child). *)
Theorem child_exit_code_propagated (w : World) (cmd : list string)
    (cwd : Path) (rc : Z) :
  In (EvRun cmd cwd) (events (run_script w)) ->
  os_spawn w cmd cwd = CompletedProcess rc ->
  (forall g exe args,
      child_cmd exe args = cmd -> PROJECT_DIR g = cwd ->
      outcome (run_entrypoint w g exe args) = Ok rc)
  /\ outcome (main w {| PROJECT_DIR := parent (fs_resolve w (module_file w)) |} None)
     = Ok rc
  /\ outcome (script w) = Raise (SystemExit (ExitCode rc))
  /\ stderr (run_script w) = []
  /\ exit_status (run_script w) = (rc mod 256)%Z
  /\ ((0 <= rc < 256)%Z -> exit_status (run_script w) = rc).
Proof.
  intros Hin Hrc. split.
  { intros g exe args <- <-. rewrite run_entrypoint_eq. unfold spawn_result.
    simpl. by rewrite Hrc. }
  rewrite script_events in Hin. destruct Hin as [Hin|Hin]; [done|].
  pose proof (main_returns _ _ _ _ _ _ Hin Hrc) as Hmain.
  split; [done|]. unfold run_script. rewrite script_eq. simpl. rewrite Hmain.
  simpl. repeat split. intros Hrange. by apply Z.mod_small.
Qed.

Lemma child_exit_code_propagated_witness :
  let w := example_world ["projects"; "list"] (Some "/usr/bin/bun")
             (CompletedProcess 3) in
  outcome (main w example_globals None) = Ok 3%Z
  /\ exit_status (run_script w) = 3%Z.
Proof.
  intros w.
  pose proof (child_exit_code_propagated w
    ["/usr/bin/bun"; "src/bin/opencode-manager.ts"; "projects"; "list"]
    {| parts := ["opt"; "oc"] |} 3%Z) as H.
  destruct H as (_ & Hmain & _ & _ & _ & Hstatus).
  - vm_compute. right. right. by left.
  - reflexivity.
  - split; [exact Hmain | apply Hstatus; lia].
Defined.

(** ** Classification *)

Lemma CLI_SUBCOMMANDS_spec (t : string) :
  t ∈ CLI_SUBCOMMANDS
  <-> t = "projects" \/ t = "sessions" \/ t = "chat" \/ t = "tokens".
Proof.
  unfold CLI_SUBCOMMANDS. rewrite !elem_of_union, !elem_of_singleton. tauto.
Qed.

Lemma is_cli_subcommand_flags flags args :
  Forall is_flag flags ->
  is_cli_subcommand (flags ++ args) = is_cli_subcommand args.
Proof.
  induction 1 as [|f flags Hf _ IH]; [done|]. simpl.
  unfold is_flag in Hf. by rewrite Hf.
Qed.

Lemma is_cli_subcommand_first args :
  is_cli_subcommand args = true ->
  exists flags t rest,
    args = flags ++ t :: rest /\ Forall is_flag flags /\ ~ is_flag t
    /\ t ∈ CLI_SUBCOMMANDS.
Proof.
  induction args as [|a args IH]; simpl; [done|].
  destruct (startswith a "-") eqn:Ha.
  - intros (flags & t & rest & -> & Hflags & Ht & Hin)%IH.
    exists (a :: flags), t, rest. repeat split; [by constructor | done..].
  - intros Hin%bool_decide_eq_true.
    exists [], a, args. repeat split; [constructor | | done].
    unfold is_flag. by rewrite Ha.
Qed.

(** C3. [is_cli_subcommand] answers "subcommand" exactly when the first
    token that does not start with ["-"] is one of [projects],
    [sessions], [chat], [tokens]; it answers "interactive" when every
    token starts with ["-"] (so also for no token at all); and the
    tokens that start with ["-"] ahead of the first other token have no
    influence: any such tokens can stand in their place. *)
Theorem is_cli_subcommand_classification (args : list string) :
  (is_cli_subcommand args = true
   <-> exists flags t rest,
       args = flags ++ t :: rest /\ Forall is_flag flags /\ ~ is_flag t
       /\ (t = "projects" \/ t = "sessions" \/ t = "chat" \/ t = "tokens"))
  /\ (Forall is_flag args -> is_cli_subcommand args = false)
  /\ is_cli_subcommand [] = false
  /\ (forall flags flags',
        Forall is_flag flags -> Forall is_flag flags' ->
        is_cli_subcommand (flags ++ args) = is_cli_subcommand (flags' ++ args)).
Proof.
  repeat split.
  - intros (flags & t & rest & ? & ? & ? & ?%CLI_SUBCOMMANDS_spec)%is_cli_subcommand_first.
    by exists flags, t, rest.
  - intros (flags & t & rest & -> & Hflags & Ht & Hin%CLI_SUBCOMMANDS_spec).
    rewrite is_cli_subcommand_flags by done. simpl.
    unfold is_flag in Ht. apply not_true_is_false in Ht. rewrite Ht.
    by apply bool_decide_eq_true.
  - intros Hall. rewrite <- (app_nil_r args).
    by rewrite is_cli_subcommand_flags.
  - intros flags flags' H H'. by rewrite !is_cli_subcommand_flags.
Qed.

(** ** The runtime locator *)

Lemma Segmented_plain_app pre post segs :
  forallb (fun t => negb (is_bun_token t)) pre = true ->
  Segmented post segs ->
  Segmented (pre ++ post) ((Other <$> pre) ++ segs).
Proof.
  intros Hpre Hpost. induction pre as [|t pre IH]; simpl in *; [done|].
  apply andb_true_iff in Hpre as [Ht Hpre]. apply negb_true_iff in Ht.
  unfold is_bun_token in Ht. apply orb_false_iff in Ht as [Ht1 Ht2].
  constructor; [left; by apply String.eqb_neq | done | by apply IH].
Qed.

Lemma override_once before pre occ post v :
  seg_value occ = Some v ->
  override before ((Other <$> pre) ++ occ :: (Other <$> post)) = Some v.
Proof.
  intros Hv. unfold override.
  rewrite values_app, values_cons, !values_plain, Hv. reflexivity.
Qed.

Lemma kept_once pre occ post :
  seg_kept occ = [] ->
  kept ((Other <$> pre) ++ occ :: (Other <$> post)) = pre ++ post.
Proof.
  intros Hk. rewrite kept_app, kept_plain.
  change (occ :: (Other <$> post)) with ([occ] ++ (Other <$> post)).
  rewrite kept_app, kept_plain. unfold kept at 1. simpl. by rewrite Hk.
Qed.

Lemma truthy_nonempty v : v <> "" -> truthy (Some v) = Some v.
Proof. intros Hv. simpl. apply String.eqb_neq in Hv. by rewrite Hv. Qed.

(** C4. A non-empty explicit path comes back from [find_bun] unchanged,
    and the [PATH] search is not made. In particular, when the argument
    vector holds the option once, as [--bun v] or as [--bun=v] with [v]
    not empty, and no other token is [--bun] or starts with [--bun=],
    [main] calls the locator with [v]: the child is run with [v] as
    executable and the other tokens as arguments, and no search is
    made. *)
Theorem find_bun_explicit_path (w : World) (g : globals)
    (pre post : list string) (v : string) :
  v <> "" ->
  forallb (fun t => negb (is_bun_token t)) pre = true ->
  forallb (fun t => negb (is_bun_token t)) post = true ->
  find_bun w (Some v) = ([], Ok v)
  /\ (forall argv,
        argv = pre ++ ["--bun"; v] ++ post
        \/ argv = pre ++ ["--bun=" +:+ v] ++ post ->
        extract_options argv = Ok (Some v, pre ++ post)
        /\ main w g (Some argv)
           = (bun_exe <- find_bun w (Some v) ;;
              run_entrypoint w g bun_exe (pre ++ post))%py
        /\ main w g (Some argv) = run_entrypoint w g v (pre ++ post)
        /\ filter is_which (trace (main w g (Some argv))) = []).
Proof.
  intros Hv Hpre Hpost.
  assert (find_bun w (Some v) = ([], Ok v)) as Hfind.
  { by rewrite find_bun_eq, truthy_nonempty. }
  split; [done|]. intros argv Hargv.
  assert (exists occ, Segmented argv ((Other <$> pre) ++ occ :: (Other <$> post))
                      /\ seg_value occ = Some v /\ seg_kept occ = [])
    as (occ & Hseg & Hval & Hkept).
  { destruct Hargv as [-> | ->].
    - exists (BunPair v). repeat split.
      apply Segmented_plain_app; [done|]. constructor. by apply Segmented_plain.
    - exists (BunEq v). repeat split.
      apply Segmented_plain_app; [done|]. constructor. by apply Segmented_plain. }
  pose proof (extract_options_segmented _ _ Hseg) as Hext.
  rewrite (override_once _ _ _ _ _ Hval), (kept_once _ _ _ Hkept) in Hext.
  assert (main w g (Some argv)
          = (bun_exe <- find_bun w (Some v) ;;
             run_entrypoint w g bun_exe (pre ++ post))%py) as Hmain.
  { rewrite main_eq. cbn [default_argv].
    rewrite <- (Segmented_segments _ _ Hseg).
    by rewrite (override_once _ _ _ _ _ Hval), (kept_once _ _ _ Hkept). }
  split; [done|]. split; [done|]. rewrite Hmain, Hfind, bind_ret_l.
  split; [done|]. by rewrite run_entrypoint_eq.
Qed.

Lemma find_bun_explicit_path_witness :
  let w := example_world [] None (CompletedProcess 0) in
  main w example_globals
       (Some ["--root"; "/r"; "--bun"; "/custom/path"; "projects"; "list"])
  = run_entrypoint w example_globals "/custom/path"
      ["--root"; "/r"; "projects"; "list"]
  /\ main w example_globals
          (Some ["--root"; "/r"; "--bun=/custom/path"; "projects"; "list"])
     = run_entrypoint w example_globals "/custom/path"
         ["--root"; "/r"; "projects"; "list"].
Proof.
  intros w.
  destruct (find_bun_explicit_path w example_globals
              ["--root"; "/r"] ["projects"; "list"] "/custom/path")
    as [_ H]; [done | reflexivity | reflexivity |].
  split.
  - apply (H ["--root"; "/r"; "--bun"; "/custom/path"; "projects"; "list"]).
    by left.
  - apply (H ["--root"; "/r"; "--bun=/custom/path"; "projects"; "list"]).
    by right.
Defined.

(** C5. When no override is in force (none was given, or the one given
    is empty) and the [PATH] search finds nothing, [find_bun] raises
    [SystemExit] with the message that asks to install Bun, after one
    search; [main] lets it through without starting a child, and the
    script ends with that message on the standard error stream and
    status 1: after the path of the module was resolved, the only thing
    that happened is the one search. *)
Theorem runtime_not_found_is_fatal (w : World) (g : globals)
    (argv : option (list string)) (bun_exe_path : option string)
    (filtered_args : list string) :
  extract_options (default_argv w argv) = Ok (bun_exe_path, filtered_args) ->
  truthy bun_exe_path = None ->
  truthy (shutil_which w "bun") = None ->
  find_bun w bun_exe_path
  = ([EvWhich "bun"],
     Raise (SystemExit
              (ExitMessage "bun executable not found. Please install Bun.")))
  /\ main w g argv
     = ([EvWhich "bun"],
        Raise (SystemExit
                 (ExitMessage "bun executable not found. Please install Bun.")))
  /\ filter is_run (trace (main w g argv)) = []
  /\ (argv = None ->
      events (run_script w) = [EvResolve (module_file w); EvWhich "bun"]
      /\ stderr (run_script w)
         = [Message "bun executable not found. Please install Bun."]
      /\ exit_status (run_script w) = 1%Z
      /\ exit_status (run_script w) <> 0%Z).
Proof.
  intros Hext Hbun Hwhich.
  rewrite extract_options_total in Hext. injection Hext as Hb Hf.
  assert (main w g argv = ([EvWhich "bun"], Raise not_found)) as Hmain.
  { rewrite main_cases. simpl. by rewrite Hb, Hbun, Hwhich. }
  split; [by rewrite find_bun_eq, Hbun, Hwhich|].
  split; [done|]. split; [by rewrite Hmain|].
  intros ->. unfold run_script. rewrite script_eq. cbv zeta.
  assert (main w {| PROJECT_DIR := parent (fs_resolve w (module_file w)) |} None
          = ([EvWhich "bun"], Raise not_found)) as ->.
  { rewrite main_cases. simpl. simpl in Hb. by rewrite Hb, Hbun, Hwhich. }
  by simpl.
Qed.

Lemma runtime_not_found_is_fatal_witness :
  let w := example_world ["--bun="; "projects"; "list"] None
             (CompletedProcess 0) in
  events (run_script w) = [EvResolve "manage_opencode_projects.py"; EvWhich "bun"]
  /\ exit_status (run_script w) = 1%Z.
Proof.
  intros w.
  destruct (runtime_not_found_is_fatal w example_globals None
              (Some "") ["projects"; "list"])
    as (_ & _ & _ & H); [reflexivity | reflexivity | reflexivity |].
  destruct (H eq_refl) as (Hev & _ & Hst & _). by split.
Defined.

(** ** A child that cannot be started *)

(** C6, counterexample. The wrapper has two fatal errors of its own, a
    runtime that is not found and a child that cannot be created. The
    claim of a status that tells the second from the first does not
    hold: both end the wrapper with status 1. Here the first run finds
    [/usr/bin/bun] on the [PATH] and fails to start it (errno 13), the
    second finds no runtime at all. *)
Lemma launch_failure_status_not_distinguishable :
  ~ (forall w w' : World,
        launch_fails w -> runtime_not_found w' ->
        exit_status (run_script w) <> exit_status (run_script w')).
Proof.
  intros H.
  apply (H (example_world [] (Some "/usr/bin/bun") (LaunchFailed 13))
           (example_world [] None (CompletedProcess 0))).
  - exists ["/usr/bin/bun"; "src/bin/opencode-manager.ts"],
      {| parts := ["opt"; "oc"] |}, 13%Z.
    split; [|reflexivity]. vm_compute. right. right. by left.
  - reflexivity.
  - reflexivity.
Qed.

Lemma main_launch_failed w g argv cmd cwd errno :
  In (EvRun cmd cwd) (trace (main w g argv)) ->
  os_spawn w cmd cwd = LaunchFailed errno ->
  outcome (main w g argv) = Raise (OSError errno)
  /\ filter is_run (trace (main w g argv)) = [EvRun cmd cwd]
  /\ last (trace (main w g argv)) = Some (EvRun cmd cwd).
Proof.
  rewrite main_cases. unfold spawn_result.
  destruct (truthy (override None _)) as [p|];
    [|destruct (truthy (shutil_which w "bun")) as [p|]]; simpl;
    intros Hin Hrc; intuition simplify_eq; first [done | by rewrite Hrc].
Qed.

(** C6, as the program has it. When the child cannot be created, the
    [OSError] of [subprocess.run] is not caught: it leaves
    [run_entrypoint] and [main], and the script ends with its traceback
    on the standard error stream and the status 1, which is not zero.
    The launch was tried once and nothing was done after it. *)
Theorem launch_failure_is_fatal (w : World) (cmd : list string) (cwd : Path)
    (errno : Z) :
  In (EvRun cmd cwd) (events (run_script w)) ->
  os_spawn w cmd cwd = LaunchFailed errno ->
  outcome (main w {| PROJECT_DIR := parent (fs_resolve w (module_file w)) |} None)
  = Raise (OSError errno)
  /\ outcome (script w) = Raise (OSError errno)
  /\ stderr (run_script w) = [Traceback (OSError errno)]
  /\ exit_status (run_script w) = 1%Z
  /\ exit_status (run_script w) <> 0%Z
  /\ filter is_run (events (run_script w)) = [EvRun cmd cwd]
  /\ last (events (run_script w)) = Some (EvRun cmd cwd).
Proof.
  intros Hin Hfail. rewrite script_events in *.
  destruct Hin as [Hin|Hin]; [done|].
  destruct (main_launch_failed _ _ _ _ _ _ Hin Hfail) as (Hout & Hruns & Hlast).
  split; [done|]. unfold run_script. rewrite script_eq. simpl. rewrite Hout.
  simpl. repeat split; [done..|].
  rewrite last_cons, Hlast. done.
Qed.

Lemma launch_failure_is_fatal_witness :
  let w := example_world ["projects"] (Some "/usr/bin/bun") (LaunchFailed 13) in
  stderr (run_script w) = [Traceback (OSError 13)]
  /\ exit_status (run_script w) = 1%Z.
Proof.
  intros w.
  destruct (launch_failure_is_fatal w
              ["/usr/bin/bun"; "src/bin/opencode-manager.ts"; "projects"]
              {| parts := ["opt"; "oc"] |} 13%Z)
    as (_ & _ & Herr & Hst & _).
  - vm_compute. right. right. by left.
  - reflexivity.
  - by split.
Defined.

(** ** Option extraction *)

Lemma drop_leading_separator_cases (args : list string) :
  (exists rest, args = "--" :: rest /\ drop_leading_separator args = rest)
  \/ (head args <> Some "--" /\ drop_leading_separator args = args).
Proof.
  destruct args as [|a rest]; [by right|]. simpl.
  destruct (String.eqb a "--") eqn:Ha.
  - apply String.eqb_eq in Ha as ->. left. by exists rest.
  - apply String.eqb_neq in Ha. right. split; [|done]. by intros [= ->].
Qed.

(** C7. The loop of [main] ends for every argument vector, and what it
    keeps is read off the left-to-right reading of the vector: the
    tokens outside the recognized [--bun VALUE] and [--bun=VALUE]
    occurrences, in their order (a sublist of the input: nothing added,
    nothing moved). [run_entrypoint] then forwards these tokens as they
    are, or without their first element when that is ["--"]. *)
Theorem extraction_keeps_other_tokens (argv : list string) :
  exists (segs : list segment) (bun_exe_path : option string),
    Segmented argv segs
    /\ tokens segs = argv
    /\ extract_options argv = Ok (bun_exe_path, kept segs)
    /\ kept segs `sublist_of` argv
    /\ (drop_leading_separator (kept segs) = kept segs
        \/ kept segs = "--" :: drop_leading_separator (kept segs))
    /\ (forall w g,
          main w g (Some argv)
          = (bun_exe <- find_bun w bun_exe_path ;;
             run_entrypoint w g bun_exe (kept segs))%py)
    /\ (forall w g bun_exe,
          trace (run_entrypoint w g bun_exe (kept segs))
          = [EvRun (bun_exe :: "src/bin/opencode-manager.ts"
                      :: drop_leading_separator (kept segs))
                   (PROJECT_DIR g)]).
Proof.
  exists (segments argv), (override None (segments argv)).
  pose proof (segments_spec argv) as Hseg.
  split; [done|]. split; [by apply Segmented_tokens|].
  split; [apply extract_options_total|].
  split; [by apply Segmented_kept_sublist|]. split.
  { destruct (drop_leading_separator_cases (kept (segments argv)))
      as [(rest & Hk & Hd) | [_ Hd]]; [right | by left].
    by rewrite Hd. }
  split; [intros w g; apply main_eq|].
  intros w g bun_exe. by rewrite run_entrypoint_eq.
Qed.

(** C8. With the recognized occurrences read left to right, the override
    that the loop ends with, and that [main] hands to [find_bun], is the
    value of the last one, whatever the values [earlier] of the
    occurrences before it; all occurrences are left out of the kept
    tokens. *)
Theorem last_bun_occurrence_wins (w : World) (g : globals)
    (argv : list string) (segs : list segment) (earlier : list string)
    (v : string) :
  Segmented argv segs ->
  values segs = earlier ++ [v] ->
  extract_options argv = Ok (Some v, kept segs)
  /\ main w g (Some argv)
     = (bun_exe <- find_bun w (Some v) ;;
        run_entrypoint w g bun_exe (kept segs))%py.
Proof.
  intros Hseg Hvals.
  assert (override None segs = Some v) as Hov.
  { unfold override. by rewrite Hvals, last_snoc. }
  split.
  - by rewrite (extract_options_segmented _ _ Hseg), Hov.
  - rewrite main_eq. cbn [default_argv].
    by rewrite <- (Segmented_segments _ _ Hseg), Hov.
Qed.

Lemma last_bun_occurrence_wins_witness :
  extract_options ["--bun"; "/a"; "chat"; "--bun=/b"; "--model"; "--bun"; "/c"]
  = Ok (Some "/c", ["chat"; "--model"]).
Proof.
  apply (last_bun_occurrence_wins
           (example_world [] None (CompletedProcess 0)) example_globals
           ["--bun"; "/a"; "chat"; "--bun=/b"; "--model"; "--bun"; "/c"]
           [BunPair "/a"; Other "chat"; BunEq "/b"; Other "--model"; BunPair "/c"]
           ["/a"; "/b"] "/c").
  - apply Segmented_pair, Segmented_other; [by left | reflexivity |].
    apply (Segmented_eq "/b"), Segmented_other; [by left | reflexivity |].
    apply Segmented_pair, Segmented_nil.
  - reflexivity.
Defined.

(** C9. The normalization of [run_entrypoint] either finds ["--"] at
    the head and removes that one element, or finds something else there
    (or nothing) and changes nothing. So a ["--"] behind the head stays,
    also the one that comes to the head when the first is removed. *)
Theorem leading_separator_dropped_once (args : list string) :
  ((exists rest, args = "--" :: rest /\ drop_leading_separator args = rest)
   \/ (head args <> Some "--" /\ drop_leading_separator args = args))
  /\ drop_leading_separator ("--" :: args) = args
  /\ drop_leading_separator ("--" :: "--" :: args) = "--" :: args
  /\ (forall w g bun_exe,
        trace (run_entrypoint w g bun_exe ("--" :: "--" :: args))
        = [EvRun (bun_exe :: "src/bin/opencode-manager.ts" :: "--" :: args)
                 (PROJECT_DIR g)]).
Proof.
  split; [apply drop_leading_separator_cases|]. split; [done|]. split; [done|].
  intros w g bun_exe. by rewrite run_entrypoint_eq.
Qed.

(** ** A [--bun] with no value *)

(** C10, counterexample. The claim that a final [--bun] is always kept
    and never touches the override fails when the token before it is a [--bun] that still
    waits for its value: the final token is then taken as that value. *)
Lemma final_bun_taken_as_value :
  ~ (forall (pre : list string) (bun_exe_path : option string)
            (filtered_args : list string),
        extract_options pre = Ok (bun_exe_path, filtered_args) ->
        extract_options (pre ++ ["--bun"])
        = Ok (bun_exe_path, filtered_args ++ ["--bun"])).
Proof.
  intros H. specialize (H ["--bun"] None ["--bun"] eq_refl). discriminate H.
Qed.

Lemma override_snoc_other before segs t :
  override before (segs ++ [Other t]) = override before segs.
Proof. unfold override. by rewrite values_app, app_nil_r. Qed.

Lemma override_empty_last before segs post :
  override before (segs ++ BunEq "" :: (Other <$> post)) = Some "".
Proof.
  unfold override. rewrite values_app, values_cons, values_plain. simpl.
  by rewrite last_snoc.
Qed.

(** C10, as the program has it. Let the tokens [pre] ahead be read
    without a [--bun] left waiting for its value at their end. Then a
    final [--bun] is not an occurrence of the option: it is kept, after
    the tokens kept from [pre], and the override stays what [pre] made
    it. And a [--bun=] with nothing after the ["="], followed by tokens
    that are not the option, sets the override to the empty string,
    which [find_bun] takes as no override: the [PATH] search is made. *)
Theorem final_bun_without_value (w : World) (g : globals)
    (pre post : list string) (segs : list segment) :
  Segmented pre segs ->
  last segs <> Some (Other "--bun") ->
  forallb (fun t => negb (is_bun_token t)) post = true ->
  extract_options pre = Ok (override None segs, kept segs)
  /\ extract_options (pre ++ ["--bun"])
     = Ok (override None segs, kept segs ++ ["--bun"])
  /\ extract_options (pre ++ ["--bun="] ++ post)
     = Ok (Some "", kept segs ++ post)
  /\ find_bun w (Some "") = find_bun w None
  /\ main w g (Some (pre ++ ["--bun="] ++ post))
     = (bun_exe <- find_bun w None ;;
        run_entrypoint w g bun_exe (kept segs ++ post))%py
  /\ head (trace (main w g (Some (pre ++ ["--bun="] ++ post))))
     = Some (EvWhich "bun").
Proof.
  intros Hseg Hlast Hpost.
  split; [by apply extract_options_segmented|]. split.
  { assert (Segmented (pre ++ ["--bun"]) (segs ++ [Other "--bun"])) as H.
    { apply Segmented_app; [done..|].
      constructor; [by right | reflexivity | constructor]. }
    rewrite (extract_options_segmented _ _ H), override_snoc_other, kept_app.
    reflexivity. }
  assert (Segmented (pre ++ ["--bun="] ++ post)
            (segs ++ BunEq "" :: (Other <$> post))) as H.
  { apply Segmented_app; [done..|].
    apply (Segmented_eq ""). by apply Segmented_plain. }
  assert (kept (segs ++ BunEq "" :: (Other <$> post)) = kept segs ++ post) as Hk.
  { rewrite kept_app. f_equal.
    change (BunEq "" :: (Other <$> post)) with ([BunEq ""] ++ (Other <$> post)).
    by rewrite kept_app, kept_plain. }
  assert (main w g (Some (pre ++ ["--bun="] ++ post))
          = (bun_exe <- find_bun w None ;;
             run_entrypoint w g bun_exe (kept segs ++ post))%py) as Hmain.
  { rewrite main_eq. cbn [default_argv].
    rewrite <- (Segmented_segments _ _ H), override_empty_last, Hk.
    by rewrite !find_bun_eq. }
  split; [by rewrite (extract_options_segmented _ _ H), override_empty_last, Hk|].
  split; [by rewrite !find_bun_eq|]. split; [done|].
  rewrite Hmain, find_bun_eq. simpl.
  destruct (truthy (shutil_which w "bun")); [|done].
  unfold bind. by rewrite run_entrypoint_eq.
Qed.

Lemma final_bun_without_value_witness :
  extract_options (["--bun"; "/x/bun"; "chat"] ++ ["--bun"])
  = Ok (Some "/x/bun", ["chat"; "--bun"])
  /\ extract_options (["--bun"; "/x/bun"; "chat"] ++ ["--bun="] ++ ["list"])
     = Ok (Some "", ["chat"; "list"]).
Proof.
  destruct (final_bun_without_value
              (example_world [] None (CompletedProcess 0)) example_globals
              ["--bun"; "/x/bun"; "chat"] ["list"]
              [BunPair "/x/bun"; Other "chat"])
    as (_ & H1 & H2 & _).
  - apply Segmented_pair, Segmented_other; [by left | reflexivity |].
    apply Segmented_nil.
  - simpl. by intros [= ?].
  - reflexivity.
  - split; [exact H1 | exact H2].
Defined.

(** ** The examples of the specification *)

Example extract_empty : extract_options [] = Ok (None, []).
Proof. reflexivity. Qed.

Example extract_projects_list :
  extract_options ["projects"; "list"] = Ok (None, ["projects"; "list"])
  /\ is_cli_subcommand ["projects"; "list"] = true.
Proof. by split. Qed.

Example legacy_separator :
  drop_leading_separator ["--"; "--help"] = ["--help"]
  /\ is_cli_subcommand ["--help"] = false.
Proof. by split. Qed.

Example flag_value_is_classified :
  is_cli_subcommand ["--foo"; "projects"] = true.
Proof. reflexivity. Qed.

Example extract_spec_example :
  extract_options ["--bun"; "/x/bun"; "chat"; "--model"; "gpt"]
  = Ok (Some "/x/bun", ["chat"; "--model"; "gpt"]).
Proof. reflexivity. Qed.

Example is_cli_example :
  is_cli_subcommand ["--verbose"; "sessions"; "list"] = true.
Proof. reflexivity. Qed.

(** ** Further properties of the locator *)

Lemma truthy_Some o p : truthy o = Some p -> o = Some p /\ p <> "".
Proof.
  destruct o as [s|]; simpl; [|done].
  destruct (String.eqb s "") eqn:Hs; [done|].
  intros [= ->]. split; [done|]. by apply String.eqb_neq.
Qed.

(** X1. Whatever [find_bun] returns is not the empty string, and it is
    either the explicit path, returned without a search, or, when no
    explicit path is in force, what the one [PATH] search for ["bun"]
    found. *)
Theorem find_bun_result (w : World) (explicit_path : option string)
    (p : string) :
  outcome (find_bun w explicit_path) = Ok p ->
  p <> ""
  /\ ((explicit_path = Some p /\ trace (find_bun w explicit_path) = [])
      \/ (truthy explicit_path = None
          /\ shutil_which w "bun" = Some p
          /\ trace (find_bun w explicit_path) = [EvWhich "bun"])).
Proof.
  rewrite find_bun_eq.
  destruct (truthy explicit_path) as [q|] eqn:He; simpl.
  - intros [= ->]. apply truthy_Some in He as [-> Hp]. split; [done|]. by left.
  - destruct (truthy (shutil_which w "bun")) as [q|] eqn:Hw; simpl; [|done].
    intros [= ->]. apply truthy_Some in Hw as [Hw Hp]. split; [done|]. by right.
Qed.

Lemma find_bun_result_witness :
  let w := example_world [] (Some "/usr/bin/bun") (CompletedProcess 0) in
  "/usr/bin/bun" <> ""
  /\ trace (find_bun w (Some "")) = [EvWhich "bun"].
Proof.
  intros w.
  destruct (find_bun_result w (Some "") "/usr/bin/bun") as [Hne H];
    [reflexivity|].
  split; [exact Hne|]. destruct H as [[H _]|(_ & _ & H)]; [discriminate H | exact H].
Defined.

(** ** The indexing of the loop is safe *)

(** From any index, also one past the end, the loop ends without an
    exception. *)
Lemma extract_loop_total args i bun filt :
  exists r, extract_loop args i bun filt = Ok r.
Proof.
  destruct (decide (i < length args)%nat) as [Hlt|Hge].
  - pose proof (extract_loop_segmented _ _ (segments_spec (drop i args))
                  (take i args) bun filt) as H.
    rewrite take_drop, length_take in H.
    replace (i `min` length args) with i in H by lia.
    by eexists.
  - rewrite extract_loop_equation_1.
    destruct (decide (i < length args)%nat); [done|]. by eexists.
Qed.

(** X2. The two places where the loop of [main] indexes, [args[i + 1]]
    and [split("=", 1)[1]], are guarded well enough: started at any
    index with any override and any tokens kept so far, the loop ends
    with a result and not with an [IndexError]; so [main] never raises
    [IndexError], whatever the arguments and the environment. *)
Theorem extraction_never_raises_index_error (w : World) (g : globals)
    (argv : option (list string)) (args : list string) (i : nat)
    (bun_exe_path : option string) (filtered_args : list string) :
  (exists r, extract_loop args i bun_exe_path filtered_args = Ok r)
  /\ extract_loop args i bun_exe_path filtered_args <> Raise IndexError
  /\ outcome (main w g argv) <> Raise IndexError.
Proof.
  destruct (extract_loop_total args i bun_exe_path filtered_args) as [r Hr].
  split; [by exists r|]. split; [by rewrite Hr|].
  rewrite main_cases. unfold spawn_result.
  destruct (truthy (override None _)) as [p|];
    [|destruct (truthy (shutil_which w "bun")) as [p|]]; simpl;
    [destruct (os_spawn w _ _); done..|done].
Qed.

(** ** The command of the child *)




(** ** Extraction again *)

Lemma Segmented_kept argv segs :
  Segmented argv segs -> Segmented (kept segs) (Other <$> kept segs).
Proof.
  induction 1 as [|v rest segs _ IH|v rest segs _ IH|t rest segs Ht Hp Hrest IH];
    [constructor | exact IH | exact IH |].
  change (kept (Other t :: segs)) with (t :: kept segs). simpl.
  constructor; [|done..].
  destruct Ht as [Ht| ->]; [by left|]. right. by inversion Hrest.
Qed.

(** X4. What the loop keeps holds no occurrence of the option any more:
    run on its own result, the loop finds no override and keeps every
    token. *)
Theorem extraction_idempotent (argv : list string)
    (bun_exe_path : option string) (filtered_args : list string) :
  extract_options argv = Ok (bun_exe_path, filtered_args) ->
  extract_options filtered_args = Ok (None, filtered_args).
Proof.
  rewrite extract_options_total. intros [= _ <-].
  rewrite (extract_options_segmented _ _ (Segmented_kept _ _ (segments_spec argv))).
  unfold override. by rewrite values_plain, kept_plain.
Qed.

Lemma extraction_idempotent_witness :
  extract_options ["chat"; "--model"; "gpt"] = Ok (None, ["chat"; "--model"; "gpt"]).
Proof.
  apply (extraction_idempotent
           ["--bun"; "/x/bun"; "chat"; "--bun=/y"; "--model"; "gpt"]
           (Some "/y")).
  reflexivity.
Defined.

(** X5. An argument vector in which no token is [--bun] or starts with
    [--bun=] goes through unchanged: no override, every token kept, and
    [main] looks the runtime up on the [PATH] and forwards the vector. *)
Theorem plain_arguments_pass_through (w : World) (g : globals)
    (argv : list string) :
  forallb (fun t => negb (is_bun_token t)) argv = true ->
  extract_options argv = Ok (None, argv)
  /\ main w g (Some argv)
     = (bun_exe <- find_bun w None ;; run_entrypoint w g bun_exe argv)%py.
Proof.
  intros Hplain. pose proof (Segmented_plain _ Hplain) as Hseg.
  assert (override None (Other <$> argv) = None) as Hov.
  { unfold override. by rewrite values_plain. }
  split.
  - by rewrite (extract_options_segmented _ _ Hseg), Hov, kept_plain.
  - rewrite main_eq. cbn [default_argv].
    by rewrite <- (Segmented_segments _ _ Hseg), Hov, kept_plain.
Qed.

Lemma plain_arguments_pass_through_witness :
  extract_options ["sessions"; "list"; "--root"; "/r"]
  = Ok (None, ["sessions"; "list"; "--root"; "/r"]).
Proof.
  destruct (plain_arguments_pass_through
              (example_world [] None (CompletedProcess 0)) example_globals
              ["sessions"; "list"; "--root"; "/r"]) as [H _];
    [reflexivity | exact H].
Defined.

Lemma last_kept_pending argv segs :
  Segmented argv segs ->
  last (kept segs) <> Some "--bun" ->
  last segs <> Some (Other "--bun").
Proof.
  intros _ Hk [segs' ->]%last_Some. apply Hk.
  rewrite kept_app. change (kept [Other "--bun"]) with ["--bun"].
  by rewrite last_snoc.
Qed.

Lemma override_app before s1 s2 :
  override before (s1 ++ s2)
  = match override None s2 with
    | Some v => Some v
    | None => override before s1
    end.
Proof.
  unfold override. rewrite values_app, last_app.
  by destruct (last (values s2)).
Qed.

(** X6. Extraction goes through concatenation. When the tokens kept
    from [a] do not end with [--bun] (no [--bun] of [a] is left waiting
    for a value), extracting from [a ++ b] keeps what is kept from [a]
    followed by what is kept from [b], and the override is the one of
    [b] if [b] sets one, else the one of [a]. *)
Theorem extraction_of_concatenation (a b : list string)
    (bun_a bun_b : option string) (kept_a kept_b : list string) :
  extract_options a = Ok (bun_a, kept_a) ->
  extract_options b = Ok (bun_b, kept_b) ->
  last kept_a <> Some "--bun" ->
  extract_options (a ++ b)
  = Ok (match bun_b with Some v => Some v | None => bun_a end,
        kept_a ++ kept_b).
Proof.
  rewrite !extract_options_total. intros [= <- <-] [= <- <-] Hlast.
  pose proof (segments_spec a) as Ha. pose proof (segments_spec b) as Hb.
  pose proof (Segmented_app _ _ _ _ Ha (last_kept_pending _ _ Ha Hlast) Hb) as Hab.
  rewrite <- (Segmented_segments _ _ Hab).
  by rewrite override_app, kept_app.
Qed.

Lemma extraction_of_concatenation_witness :
  extract_options (["--bun"; "/a"; "chat"] ++ ["--verbose"; "--bun=/b"])
  = Ok (Some "/b", ["chat"] ++ ["--verbose"]).
Proof.
  apply (extraction_of_concatenation
           ["--bun"; "/a"; "chat"] ["--verbose"; "--bun=/b"]
           (Some "/a") (Some "/b") ["chat"] ["--verbose"]).
  - reflexivity.
  - reflexivity.
  - simpl. by intros [= ?].
Defined.

(** ** Classification and the other steps *)

Lemma is_cli_subcommand_filter (args : list string) :
  is_cli_subcommand (filter (fun t => ~ is_flag t) args) = is_cli_subcommand args.
Proof.
  induction args as [|a args IH]; [done|].
  rewrite filter_cons. destruct (decide (~ is_flag a)) as [Ha|Ha].
  - unfold is_flag in Ha. apply not_true_is_false in Ha. simpl. by rewrite Ha.
  - apply dec_stable in Ha. unfold is_flag in Ha. simpl. by rewrite Ha.
Qed.

(** X7. The classification looks at the tokens that do not start with
    ["-"] only: taking all the others away does not change it, wherever
    they stand. So the normalization of [run_entrypoint], which can only
    take a ["--"] away, leaves the classification as it is. *)
Theorem classification_ignores_flags (args : list string) :
  is_cli_subcommand (filter (fun t => ~ is_flag t) args) = is_cli_subcommand args
  /\ is_cli_subcommand (drop_leading_separator args) = is_cli_subcommand args.
Proof.
  split; [apply is_cli_subcommand_filter|].
  destruct args as [|a rest]; [done|]. simpl.
  destruct (String.eqb a "--") eqn:Ha; [|done].
  apply String.eqb_eq in Ha as ->. reflexivity.
Qed.

(** ** Success of the script *)

(** X8. The script ends with status 0 only when a child was started and
    came back with a return code that is 0 in its low eight bits;
    nothing was then written to the standard error stream by the
    wrapper. A runtime that is not found or a child that cannot be
    created never shows as success. *)
Theorem success_needs_completed_child (w : World) :
  exit_status (run_script w) = 0%Z ->
  exists cmd cwd rc,
    In (EvRun cmd cwd) (events (run_script w))
    /\ os_spawn w cmd cwd = CompletedProcess rc
    /\ (rc mod 256 = 0)%Z
    /\ stderr (run_script w) = [].
Proof.
  unfold run_script. rewrite script_eq. cbv zeta.
  rewrite main_cases. unfold spawn_result.
  destruct (truthy (override None _)) as [p|];
    [|destruct (truthy (shutil_which w "bun")) as [p|]]; simpl;
    [| |done].
  - destruct (os_spawn w _ _) as [rc|errno] eqn:Hs; simpl; [|done].
    intros Hrc. eexists _, _, rc. split; [right; by left|]. by split.
  - destruct (os_spawn w _ _) as [rc|errno] eqn:Hs; simpl; [|done].
    intros Hrc. eexists _, _, rc. split; [right; right; by left|]. by split.
Qed.

Lemma success_needs_completed_child_witness :
  let w := example_world ["tokens"] (Some "/usr/bin/bun") (CompletedProcess 0) in
  exists cmd cwd rc,
    In (EvRun cmd cwd) (events (run_script w))
    /\ os_spawn w cmd cwd = CompletedProcess rc
    /\ (rc mod 256 = 0)%Z
    /\ stderr (run_script w) = [].
Proof.
  intros w. apply (success_needs_completed_child w). reflexivity.
Defined.

(** ** An empty override *)

(** X9. When the last recognized occurrence of the option has the empty
    string as its value, in the form [--bun=] or as [--bun] followed by
    an empty token, the override of any earlier occurrence is lost:
    [main] calls [find_bun] with the empty string, which searches the
    [PATH] as if no option had been given. *)
Theorem empty_override_falls_back (w : World) (g : globals)
    (argv : list string) (segs : list segment) (earlier : list string) :
  Segmented argv segs ->
  values segs = earlier ++ [""] ->
  extract_options argv = Ok (Some "", kept segs)
  /\ main w g (Some argv)
     = (bun_exe <- find_bun w None ;; run_entrypoint w g bun_exe (kept segs))%py
  /\ head (trace (main w g (Some argv))) = Some (EvWhich "bun").
Proof.
  intros Hseg Hvals.
  assert (override None segs = Some "") as Hov.
  { unfold override. by rewrite Hvals, last_snoc. }
  assert (main w g (Some argv)
          = (bun_exe <- find_bun w None ;;
             run_entrypoint w g bun_exe (kept segs))%py) as Hmain.
  { rewrite main_eq. cbn [default_argv].
    rewrite <- (Segmented_segments _ _ Hseg), Hov. by rewrite !find_bun_eq. }
  split; [by rewrite (extract_options_segmented _ _ Hseg), Hov|].
  split; [done|]. rewrite Hmain, find_bun_eq. simpl.
  destruct (truthy (shutil_which w "bun")); [|done].
  unfold bind. by rewrite run_entrypoint_eq.
Qed.

Lemma empty_override_falls_back_witness :
  let w := example_world [] (Some "/usr/bin/bun") (CompletedProcess 0) in
  head (trace (main w example_globals (Some ["--bun=/x"; "chat"; "--bun"; ""])))
  = Some (EvWhich "bun").
Proof.
  intros w.
  destruct (empty_override_falls_back w example_globals
              ["--bun=/x"; "chat"; "--bun"; ""]
              [BunEq "/x"; Other "chat"; BunPair ""] ["/x"])
    as (_ & _ & H).
  - apply (Segmented_eq "/x"), Segmented_other; [by left | reflexivity |].
    apply Segmented_pair, Segmented_nil.
  - reflexivity.
  - exact H.
Defined.
